(** * lksmith.c: the lock registry of Locksmith, embedded in Rocq

    The file follows src/lksmith.c function by function.  Machine integers
    are [Z] with the wrap-around of [size_t] written out, byte buffers are
    [list Z] read and written through stdpp's list lookup and insert, and the
    globals of the C file are the fields of one [world] record threaded
    through a small state monad.  An access outside a buffer has no defined
    behaviour in C: the monad has a [Fault] outcome for it. *)

From Stdlib Require Import ZArith String Ascii List Lia Bool DecimalString.
From stdpp Require Import base list.

Local Open Scope Z_scope.

(** ** Constants *)

(** lksmith.h is not among the sources: the constants it declares are the
    fields of this class, and every definition below takes them as a
    parameter. *)
Class lksmith_h := {
  LKSMITH_API_VERSION : Z;
  LKSMITH_ERROR_OOM : Z;
  LKSMITH_ERROR_CREATE_WHILE_IN_USE : Z
}.

(** The values of <errno.h> on Linux. *)
Definition EIO : Z := 5.
Definition ENOMEM : Z := 12.
Definition EBUSY : Z := 16.
Definition EINVAL : Z := 22.
Definition ENAMETOOLONG : Z := 36.

(** Minimum size of the before bitfield. *)
Definition LKSMITH_BEFORE_MIN : Z := 16.

(** [sizeof(struct lksmith_lock_data)]: a [uint64_t], a [uint32_t] and an
    [int]; the flexible array [before] adds nothing. *)
Definition sizeof_lksmith_lock_data : Z := 16.

(** Conversion to [size_t] and to [uint32_t], and a store into a
    [uint8_t]. *)
Definition to_size_t (z : Z) : Z := z mod 2 ^ 64.
Definition to_uint32 (z : Z) : Z := z mod 2 ^ 32.
Definition to_uint8 (z : Z) : Z := z mod 2 ^ 8.

(** ** bitfield.h *)

(** Modelled from the spec: bitfield.h is not among the sources.  The spec
    describes the bitfields as raw bits, one per lock identifier, and
    lksmith.c itself computes the byte size of one as [(size + 7) / 8]; the
    macros below pack eight bits to a byte, bit [idx % 8] of byte
    [idx / 8].  [BITFIELD_TEST] and [BITFIELD_SET] return [None] where the
    byte lies outside the buffer. *)
Definition BITFIELD_MEM (size : Z) : Z := Z.quot (size + 7) 8.

Definition BITFIELD_TEST (name : list Z) (idx : Z) : option Z :=
  match name !! Z.to_nat (Z.quot idx 8) with
  | Some b => Some (Z.land (Z.shiftr b (Z.rem idx 8)) 1)
  | None => None
  end.

Definition BITFIELD_SET (name : list Z) (idx : Z) : option (list Z) :=
  match name !! Z.to_nat (Z.quot idx 8) with
  | Some b =>
      Some (<[Z.to_nat (Z.quot idx 8) :=
               to_uint8 (Z.lor b (Z.shiftl 1 (Z.rem idx 8)))]> name)
  | None => None
  end.

(** Bit [idx] reads as set. *)
Definition bit_is_set (name : list Z) (idx : Z) : bool :=
  match BITFIELD_TEST name idx with
  | Some b => negb (b =? 0)
  | None => false
  end.

(** ** stdio *)

(** What [%d] prints. *)
Definition fmt_d (z : Z) : string := NilZero.string_of_int (Z.to_int z).

(** [snprintf(str, size, ...)] where the conversions expand to [s].  The
    call either fails (a negative result, the buffer left as it was) or
    returns the length of [s] and stores as much of [s] as fits before the
    terminating NUL; with [size = 0] nothing is stored.  A buffer is
    modelled by the C string it holds. *)
Definition snprintf (io_ok : bool) (str : string) (size : Z) (s : string)
  : Z * string :=
  if io_ok then
    (Z.of_nat (String.length s),
     if size =? 0 then str else substring 0 (Z.to_nat (size - 1)) s)
  else (-1, str).

(** [%d] prints each of the [k] values from [z] on in at most five
    characters. *)
Fixpoint all_short (k : nat) (z : Z) : bool :=
  match k with
  | O => true
  | S k' => (String.length (fmt_d z) <=? 5)%nat && all_short k' (z + 1)
  end.

(** ** Version *)

Section Version.
Context {hdr : lksmith_h}.

(** [lksmith_get_version], whose result is a [uint32_t]. *)
Definition lksmith_get_version : Z := to_uint32 LKSMITH_API_VERSION.

Definition version_major : Z := Z.land (Z.shiftr LKSMITH_API_VERSION 16) 65535.
Definition version_minor : Z := Z.land LKSMITH_API_VERSION 65535.

(** The text the format ["%d.%d"] expands to. *)
Definition version_text : string :=
  (fmt_d version_major ++ "." ++ fmt_d version_minor)%string.

(** [lksmith_verion_to_str(ver, str, str_len)]: the result and the string
    left in [str].  [io_ok] says whether the formatting call succeeds. *)
Definition lksmith_verion_to_str (io_ok : bool) (ver : Z) (str : string)
    (str_len : Z) : Z * string :=
  let '(res, str') := snprintf io_ok str str_len version_text in
  if res <? 0 then (- EIO, str')
  else if to_size_t res >=? str_len then (- ENAMETOOLONG, str')
  else (0, str').

End Version.

(** ** Data structures *)

(** [struct lksmith_lock_data].  The field [id] is [lock_id] here; [before]
    holds the bytes of the flexible array, as many as the block was
    allocated with. *)
Record lksmith_lock_data := {
  nlock : Z;
  lock_id : Z;
  before_size : Z;
  before : list Z
}.

(** A pointer to a lock record is [None] (NULL) or the address of a block of
    the heap. *)
Definition addr := nat.

(** [struct lksmith_mutex_t], of which lksmith.c uses [info.data] only. *)
Record lksmith_mutex_t := { info_data : option addr }.


(** [lksmith_error_cb_t]: the default callback or one the user installed. *)
Inductive lksmith_error_cb_t :=
  | lksmith_error_cb_to_stderr
  | user_error_cb (n : nat).

(** What a run does that a caller can observe: the internal lock taken and
    released, and the error callback called. *)
Inductive event :=
  | EvLock
  | EvUnlock
  | EvErrorCb (cb : lksmith_error_cb_t) (code : Z) (msg : string).

(** The globals of lksmith.c, the heap the records live in ([None] marks a
    freed block) and the events so far, oldest first.  A NULL table or
    bitmap is the empty list: every access to it is out of range. *)
Record world := {
  heap : list (option lksmith_lock_data);
  g_internal_lock : bool;
  g_error_cb : lksmith_error_cb_t;
  g_locks : list (option addr);
  g_locks_size : Z;
  g_locks_used : list Z;
  trace : list event
}.

(** The statics as the loader leaves them. *)
Definition initial_world : world :=
  {| heap := []; g_internal_lock := false;
     g_error_cb := lksmith_error_cb_to_stderr;
     g_locks := []; g_locks_size := 0; g_locks_used := []; trace := [] |}.

Definition set_heap (h : list (option lksmith_lock_data)) (w : world) :=
  {| heap := h; g_internal_lock := g_internal_lock w;
     g_error_cb := g_error_cb w; g_locks := g_locks w;
     g_locks_size := g_locks_size w; g_locks_used := g_locks_used w;
     trace := trace w |}.

Definition set_g_internal_lock (b : bool) (w : world) :=
  {| heap := heap w; g_internal_lock := b;
     g_error_cb := g_error_cb w; g_locks := g_locks w;
     g_locks_size := g_locks_size w; g_locks_used := g_locks_used w;
     trace := trace w |}.


Definition set_g_locks (t : list (option addr)) (n : Z) (w : world) :=
  {| heap := heap w; g_internal_lock := g_internal_lock w;
     g_error_cb := g_error_cb w; g_locks := t;
     g_locks_size := n; g_locks_used := g_locks_used w;
     trace := trace w |}.

Definition set_g_locks_used (u : list Z) (w : world) :=
  {| heap := heap w; g_internal_lock := g_internal_lock w;
     g_error_cb := g_error_cb w; g_locks := g_locks w;
     g_locks_size := g_locks_size w; g_locks_used := u;
     trace := trace w |}.

Definition emit (e : event) (w : world) :=
  {| heap := heap w; g_internal_lock := g_internal_lock w;
     g_error_cb := g_error_cb w; g_locks := g_locks w;
     g_locks_size := g_locks_size w; g_locks_used := g_locks_used w;
     trace := trace w ++ [e] |}.

(** ** The monad *)

(** A call returns a value and a world, or it runs into behaviour C leaves
    undefined (an access outside a block, a lock taken twice by one
    thread). *)
Inductive outcome (A : Type) :=
  | Done (a : A) (w : world)
  | Fault.
Arguments Done {A} a w.
Arguments Fault {A}.

Definition M (A : Type) := world -> outcome A.

Definition ret {A} (a : A) : M A := fun w => Done a w.

Definition bind {A B} (c : M A) (k : A -> M B) : M B :=
  fun w => match c w with
           | Done a w' => k a w'
           | Fault => Fault
           end.

Declare Scope lk_scope.
Delimit Scope lk_scope with lk.
Notation "'let*' x ':=' c 'in' k" := (bind c (fun x => k))
  (at level 10, x pattern, c at level 99, k at level 200) : lk_scope.
Notation "c ';;' k" := (bind c (fun _ => k))
  (at level 100, k at level 200, right associativity) : lk_scope.

Definition fault {A} : M A := fun _ => Fault.
Definition get {A} (f : world -> A) : M A := fun w => Done (f w) w.
Definition modify (f : world -> world) : M unit := fun w => Done tt (f w).

(** ** libc and pthreads *)

(** [pthread_mutex_lock(&g_internal_lock)].  The lock is not recursive: a
    thread that takes it twice does not return. *)
Definition lock_internal : M unit :=
  fun w => if g_internal_lock w then Fault
           else Done tt (emit EvLock (set_g_internal_lock true w)).

(** [pthread_mutex_unlock(&g_internal_lock)].  The call is recorded whether
    or not the lock is held; afterwards the lock is free. *)
Definition unlock_internal : M unit :=
  modify (fun w => emit EvUnlock (set_g_internal_lock false w)).

(** A call through a [lksmith_error_cb_t]. *)
Definition call_error_cb (cb : lksmith_error_cb_t) (code : Z) (msg : string)
  : M unit :=
  modify (emit (EvErrorCb cb code msg)).

(** The line [lksmith_error_cb_to_stderr] prints. *)
Definition stderr_line (code : Z) (msg : string) : string :=
  ("LOCKSMITH ERROR " ++ fmt_d code ++ ": " ++ msg
     ++ String (ascii_of_nat 10) "")%string.

(** [realloc] keeps the first bytes of the old block and promises nothing
    about the rest: [junk] is what the new part happens to hold. *)
Definition resize {A} (old : list A) (n : nat) (junk : nat -> A) : list A :=
  take n old ++ map junk (seq (length old) (n - length old)).

(** [memset(&buf[start], 0, len)], [None] when it runs past the block. *)
Definition memset0 (buf : list Z) (start len : Z) : option (list Z) :=
  if (0 <=? start) && (0 <=? len) && (start + len <=? Z.of_nat (length buf))
  then Some (take (Z.to_nat start) buf ++ replicate (Z.to_nat len) 0
               ++ drop (Z.to_nat (start + len)) buf)
  else None.

(** [free(p)]: nothing for NULL, undefined for a block not live. *)
Definition free (p : option addr) : M unit :=
  match p with
  | None => ret tt
  | Some a =>
      fun w => match heap w !! a with
               | Some (Some _) => Done tt (set_heap (<[a := None]> (heap w)) w)
               | _ => Fault
               end
  end.

(** The record a pointer leads to. *)
Definition deref (a : addr) : M lksmith_lock_data :=
  fun w => match heap w !! a with
           | Some (Some d) => Done d w
           | _ => Fault
           end.

Definition store (a : addr) (d : lksmith_lock_data) : M unit :=
  modify (fun w => set_heap (<[a := Some d]> (heap w)) w).

(** [sprintf] into a zeroed [char buf[256]]. *)
Definition format_buf (s : string) : string := snd (snprintf true "" 256 s).

(** ** The registry *)

Section Registry.
Context {hdr : lksmith_h}.
Local Open Scope lk_scope.


(** What [realloc] finds in a block it hands out. *)
Record junk := {
  junk_nlock : Z;
  junk_id : Z;
  junk_before_size : Z;
  junk_before : nat -> Z
}.

(** The block [realloc] returns for a record of [size] bytes: the fields and
    bytes of [old] as far as they go, [j] beyond. *)
Definition realloc_block (old : option lksmith_lock_data) (size : Z)
    (j : junk) : lksmith_lock_data :=
  let n := Z.to_nat (size - sizeof_lksmith_lock_data) in
  match old with
  | Some d =>
      {| nlock := nlock d; lock_id := lock_id d;
         before_size := before_size d;
         before := resize (before d) n (junk_before j) |}
  | None =>
      {| nlock := junk_nlock j; lock_id := junk_id j;
         before_size := junk_before_size j;
         before := resize [] n (junk_before j) |}
  end.

(** A pointer handed to [realloc]: NULL, the address of a block [realloc]
    handed out, or the address of any other object (a local, a static). *)
Inductive c_pointer :=
  | PNull
  | PBlock (a : addr)
  | PObject.

(** [realloc(p, size)] for the block of a lock record: the new address, or
    [None] for a failure, which leaves the old block as it was.  [o] is
    [None] when the allocation fails.  A new block goes to the end of the
    heap and a live one is resized where it is.  With a pointer that is
    neither NULL nor a live block of the allocator the call is
    undefined. *)
Definition realloc (p : c_pointer) (size : Z) (o : option junk)
  : M (option addr) :=
  match p with
  | PNull =>
      match o with
      | None => ret None
      | Some j =>
          let* a := get (fun w => length (heap w)) in
          modify (fun w =>
            set_heap (heap w ++ [Some (realloc_block None size j)]) w) ;;
          ret (Some a)
      end
  | PBlock a =>
      let* d := deref a in
      match o with
      | None => ret None
      | Some j => store a (realloc_block (Some d) size j) ;; ret (Some a)
      end
  | PObject => fault
  end.

(** [lksmith_realloc_lock_data(data, before_size)], the second parameter
    spelled [bsize] to keep it apart from the field.  The argument [data]
    of the model is the value of [*data] on entry; the result is the return
    value and the value of [*data] on exit.

    The pointer [data] itself is the address of a pointer variable of the
    caller: in the one call of the source, the address of a local of
    [lksmith_pthread_mutex_init].  The source hands this [data], not
    [*data], to [realloc]: the pointer [realloc] receives is [PObject]. *)
Definition lksmith_realloc_lock_data (data : option addr) (bsize : Z)
    (o : option junk) : M (Z * option addr) :=
  let new_size :=
    to_size_t (sizeof_lksmith_lock_data + BITFIELD_MEM bsize) in
  let* old_size := match data with
                   | Some a =>
                       let* d := deref a in ret (to_size_t (before_size d))
                   | None => ret 0
                   end in
  let* new_data := realloc PObject new_size o in
  match new_data with
  | None => ret (LKSMITH_ERROR_OOM, data)
  | Some n =>
      let* blk := deref n in
      let* blk :=
        if old_size =? 0 then
          (* zero everything *)
          ret {| nlock := 0; lock_id := 0; before_size := 0;
                 before := replicate (length (before blk)) 0 |}
        else
          let old_byte_size := Z.quot (to_size_t (old_size + 7)) 8 in
          let new_byte_size := Z.quot (to_size_t (new_size + 7)) 8 in
          if new_byte_size >? old_byte_size then
            match memset0 (before blk) old_byte_size
                    (to_size_t (new_byte_size - bsize)) with
            | Some b =>
                ret {| nlock := nlock blk; lock_id := lock_id blk;
                       before_size := before_size blk;
                       before := b |}
            | None => fault
            end
          else ret blk in
      store n {| nlock := nlock blk; lock_id := lock_id blk;
                 before_size := bsize; before := before blk |} ;;
      ret (0, Some n)
  end.

(** The scan loop of [lksmith_alloc_next_lock_id], entered at index [i] with
    [k] indices left below [g_locks_size]: the guard [i < g_locks_size] is
    [k <> 0].  The result is the value of [i] after the loop, [None] when a
    test reads outside the bitmap. *)
Fixpoint scan_used (used : list Z) (k : nat) (i : Z) : option Z :=
  match k with
  | O => Some i
  | S k' =>
      match BITFIELD_TEST used i with
      | None => None
      | Some b => if b =? 0 then Some i else scan_used used k' (i + 1)
      end
  end.

(** What the two [realloc] calls of the allocator return: [None] for a
    failure, else the contents of the added part. *)
Record alloc_oracle := {
  realloc_used : option (nat -> Z);
  realloc_locks : option (nat -> option addr)
}.

(** [lksmith_alloc_next_lock_id].  Called with [g_internal_lock] held. *)
Definition lksmith_alloc_next_lock_id (o : alloc_oracle) : M Z :=
  let* size := get g_locks_size in
  let* used := get g_locks_used in
  match scan_used used (Z.to_nat size) 0 with
  | None => fault
  | Some i =>
      let set_bit : M Z :=
        let* used := get g_locks_used in
        match BITFIELD_SET used i with
        | Some u => modify (set_g_locks_used u) ;; ret i
        | None => fault
        end in
      if i >? size then
        let grow_locks : M Z :=
          match realloc_locks o with
          | None => ret LKSMITH_ERROR_OOM
          | Some j =>
              modify (fun w => set_g_locks (resize (g_locks w) (Z.to_nat i) j)
                                 i w) ;;
              set_bit
          end in
        if BITFIELD_MEM i >? BITFIELD_MEM size then
          match realloc_used o with
          | None => ret LKSMITH_ERROR_OOM
          | Some j =>
              modify (fun w =>
                set_g_locks_used
                  (resize (g_locks_used w) (Z.to_nat (BITFIELD_MEM i)) j) w) ;;
              grow_locks
          end
        else grow_locks
      else set_bit
  end.

(** What [lksmith_pthread_mutex_init] depends on besides its arguments: the
    [realloc] calls, and the value its compare-and-swap stores. *)
Record init_oracle := {
  id_oracle : alloc_oracle;
  data_oracle : option junk;
  cas_newval : option addr
}.

(** The [switch (ret)] that ends [lksmith_pthread_mutex_init]. *)
Definition init_errno (ret_code : Z) : Z :=
  if ret_code =? LKSMITH_ERROR_CREATE_WHILE_IN_USE then EBUSY
  else if ret_code =? LKSMITH_ERROR_OOM then ENOMEM
  else EINVAL.

(** The code after the label [error] of [lksmith_pthread_mutex_init]. *)
Definition init_error (ret_code : Z) (buf : string) (data : option addr)
  : M Z :=
  free data ;;
  let* error_cb := get g_error_cb in
  unlock_internal ;;
  call_error_cb error_cb ret_code buf ;;
  ret (init_errno ret_code).

(** [__sync_val_compare_and_swap(&mutex->info.data, NULL, newval)]: the old
    value, and the handle afterwards.  The source gives the builtin two
    arguments and so names no value to store: [newval] is a parameter, and
    [lksmith_pthread_mutex_init] takes it from its oracle. *)
Definition compare_and_swap_data (mutex : lksmith_mutex_t)
    (newval : option addr) : option addr * lksmith_mutex_t :=
  match info_data mutex with
  | None => (None, {| info_data := newval |})
  | Some p => (Some p, mutex)
  end.

(** The message of the first error path of [lksmith_pthread_mutex_init]. *)
Definition msg_oom_id (name : string) : string :=
  format_buf ("lksmith_pthread_mutex_init(" ++ name ++
    ") out of memory trying to allocate a new lock id.").

(** [snprintf(buf, sizeof(buf), fmt)] where [fmt] has a [%s] and the call
    no argument for it, as on the other two error paths: undefined. *)
Definition snprintf_missing_arg : M string := fault.

(** [lksmith_pthread_mutex_init(name, mutex, mutexattr)]: the return value
    and the handle afterwards.  [mutexattr] is not used. *)
Definition lksmith_pthread_mutex_init (name : string)
    (mutex : lksmith_mutex_t) (o : init_oracle) : M (Z * lksmith_mutex_t) :=
  lock_internal ;;
  let* next_lock_id := lksmith_alloc_next_lock_id (id_oracle o) in
  if next_lock_id <? 0 then
    let buf := msg_oom_id name in
    let* r := init_error LKSMITH_ERROR_OOM buf None in
    ret (r, mutex)
  else
    let* (code, data) :=
      lksmith_realloc_lock_data None LKSMITH_BEFORE_MIN (data_oracle o) in
    if negb (code =? 0) then
      let* buf := snprintf_missing_arg in
      let* r := init_error LKSMITH_ERROR_OOM buf data in
      ret (r, mutex)
    else
      match data with
      | None => fault
      | Some a =>
          let* d := deref a in
          store a {| nlock := nlock d; lock_id := to_uint32 next_lock_id;
                     before_size := before_size d; before := before d |}
      end ;;
      let '(prev, mutex) := compare_and_swap_data mutex (cas_newval o) in
      match prev with
      | Some _ =>
          let* error_cb := get g_error_cb in
          unlock_internal ;;
          let* buf := snprintf_missing_arg in
          let* r := init_error LKSMITH_ERROR_CREATE_WHILE_IN_USE buf data in
          ret (r, mutex)
      | None =>
          unlock_internal ;;
          ret (0, mutex)
      end.






End Registry.

(** ** Reading a trace *)



(** ** The registry invariant *)



(** ** States to run the code on *)

(** A registry of [n] slots, none pointing anywhere, with the bitmap
    [used]. *)
Definition registry (n : nat) (used : list Z) : world :=
  {| heap := []; g_internal_lock := false;
     g_error_cb := lksmith_error_cb_to_stderr;
     g_locks := replicate n None; g_locks_size := Z.of_nat n;
     g_locks_used := used; trace := [] |}.

(** A block [realloc] returns with every bit set. *)
Definition junk_ones : junk :=
  {| junk_nlock := 255; junk_id := 255; junk_before_size := 255;
     junk_before := fun _ => 255 |}.

(** Oracles: every [realloc] of the allocator fails. *)
Definition no_memory : alloc_oracle :=
  {| realloc_used := None; realloc_locks := None |}.

(** The record allocation gets a block with every bit set. *)
Definition init_memory : init_oracle :=
  {| id_oracle := no_memory; data_oracle := Some junk_ones;
     cas_newval := None |}.

(** A header to run the code with. *)
Definition sample_h : lksmith_h :=
  {| LKSMITH_API_VERSION := 655370; LKSMITH_ERROR_OOM := -1;
     LKSMITH_ERROR_CREATE_WHILE_IN_USE := -2 |}.




(** ** The states of a run *)

Section Run.
Context {hdr : lksmith_h}.




End Run.

(** * Properties *)

(** ** Bitfields *)

Lemma land_shiftr_1 (b k : Z) :
  0 <= k -> Z.land (Z.shiftr b k) 1 = Z.b2z (Z.testbit b k).
Proof.
  intros Hk. change 1 with (Z.ones 1).
  rewrite Z.land_ones by lia. change (2 ^ 1) with 2.
  rewrite <- Z.bit0_mod, Z.shiftr_spec by lia.
  now rewrite Z.add_0_l.
Qed.

(** Reading a bit is [Z.testbit] on the byte that holds it. *)
Lemma bit_is_set_testbit (name : list Z) (idx : Z) :
  0 <= idx ->
  bit_is_set name idx =
    match name !! Z.to_nat (idx / 8) with
    | Some b => Z.testbit b (idx mod 8)
    | None => false
    end.
Proof.
  intros Hidx. unfold bit_is_set, BITFIELD_TEST.
  rewrite Z.quot_div_nonneg, Z.rem_mod_nonneg by lia.
  destruct (name !! Z.to_nat (idx / 8)) as [b|]; [|reflexivity].
  rewrite land_shiftr_1 by (apply Z.mod_pos_bound; lia).
  now destruct (Z.testbit b (idx mod 8)).
Qed.

Lemma BITFIELD_TEST_clear (name : list Z) (idx : Z) :
  BITFIELD_TEST name idx = Some 0 -> bit_is_set name idx = false.
Proof. unfold bit_is_set. now intros ->. Qed.

Lemma BITFIELD_SET_length (name u : list Z) (idx : Z) :
  BITFIELD_SET name idx = Some u -> length u = length name.
Proof.
  unfold BITFIELD_SET.
  destruct (name !! Z.to_nat (Z.quot idx 8)); [|discriminate].
  intros [= <-]. apply length_insert.
Qed.

(** A byte after [b |= 1 << k], bit by bit. *)
Lemma set_bit_testbit (b k m : Z) :
  0 <= k < 8 -> 0 <= m < 8 ->
  Z.testbit (to_uint8 (Z.lor b (Z.shiftl 1 k))) m =
    Z.testbit b m || (k =? m).
Proof.
  intros Hk Hm. unfold to_uint8.
  rewrite Z.mod_pow2_bits_low by lia.
  rewrite Z.lor_spec, Z.shiftl_1_l.
  now rewrite Z.pow2_bits_eqb by lia.
Qed.

(** The bit [BITFIELD_SET] writes reads as set afterwards. *)
Lemma BITFIELD_SET_sets (name u : list Z) (idx : Z) :
  0 <= idx -> BITFIELD_SET name idx = Some u -> bit_is_set u idx = true.
Proof.
  intros Hidx Hset. rewrite bit_is_set_testbit by assumption.
  revert Hset. unfold BITFIELD_SET.
  rewrite Z.quot_div_nonneg, Z.rem_mod_nonneg by lia.
  destruct (name !! Z.to_nat (idx / 8)) as [b|] eqn:Hb; [|discriminate].
  intros [= <-].
  rewrite list_lookup_insert_eq by (eapply lookup_lt_Some; eassumption).
  assert (0 <= idx mod 8 < 8) as Hk by (apply Z.mod_pos_bound; lia).
  rewrite set_bit_testbit by assumption.
  rewrite Z.eqb_refl. apply orb_true_r.
Qed.

(** The other bits keep their value. *)
Lemma BITFIELD_SET_other (name u : list Z) (idx j : Z) :
  0 <= idx -> 0 <= j -> j <> idx ->
  BITFIELD_SET name idx = Some u -> bit_is_set u j = bit_is_set name j.
Proof.
  intros Hidx Hj Hne Hset. rewrite !bit_is_set_testbit by assumption.
  revert Hset. unfold BITFIELD_SET.
  rewrite Z.quot_div_nonneg, Z.rem_mod_nonneg by lia.
  destruct (name !! Z.to_nat (idx / 8)) as [b|] eqn:Hb; [|discriminate].
  intros [= <-].
  assert (0 <= idx mod 8 < 8) as Hk by (apply Z.mod_pos_bound; lia).
  assert (0 <= j mod 8 < 8) as Hk' by (apply Z.mod_pos_bound; lia).
  destruct (decide (Z.to_nat (idx / 8) = Z.to_nat (j / 8))) as [Heq|Hneq].
  - rewrite <- Heq, Hb.
    rewrite list_lookup_insert_eq by (eapply lookup_lt_Some; eassumption).
    rewrite set_bit_testbit by assumption.
    assert (idx mod 8 <> j mod 8) as Hr.
    { intros Hr. apply Hne.
      rewrite (Z.div_mod j 8), (Z.div_mod idx 8) by lia.
      assert (idx / 8 = j / 8) as ->; [|lia].
      apply Z2Nat.inj; try assumption; apply Z.div_pos; lia. }
    apply Z.eqb_neq in Hr. rewrite Hr. apply orb_false_r.
  - now rewrite list_lookup_insert_ne.
Qed.

(** ** The scan loop *)

(** The loop leaves [i] between its start and the bound. *)
Lemma scan_used_bounds (used : list Z) (k : nat) (i r : Z) :
  scan_used used k i = Some r -> i <= r <= i + Z.of_nat k.
Proof.
  revert i. induction k as [|k IH]; simpl; intros i H.
  - injection H as <-. lia.
  - destruct (BITFIELD_TEST used i) as [b|]; [|discriminate].
    destruct (b =? 0).
    + injection H as <-. lia.
    + apply IH in H. lia.
Qed.

(** Where it stops short of the bound, it stops at a clear bit. *)
Lemma scan_used_stops_clear (used : list Z) (k : nat) (i r : Z) :
  scan_used used k i = Some r -> r < i + Z.of_nat k ->
  BITFIELD_TEST used r = Some 0.
Proof.
  revert i. induction k as [|k IH]; simpl; intros i H Hlt.
  - injection H as <-. lia.
  - destruct (BITFIELD_TEST used i) as [b|] eqn:Hb; [|discriminate].
    destruct (Z.eqb_spec b 0) as [->|Hne].
    + injection H as <-. assumption.
    + apply IH in H; [assumption|lia].
Qed.

(** Every bit it passes is set. *)
Lemma scan_used_skips_set (used : list Z) (k : nat) (i r j : Z) :
  scan_used used k i = Some r -> i <= j < r -> bit_is_set used j = true.
Proof.
  revert i. induction k as [|k IH]; simpl; intros i H Hj.
  - injection H as <-. lia.
  - destruct (BITFIELD_TEST used i) as [b|] eqn:Hb; [|discriminate].
    destruct (Z.eqb_spec b 0) as [->|Hne].
    + injection H as <-. lia.
    + destruct (Z.eq_dec j i) as [->|Hji].
      * unfold bit_is_set. rewrite Hb. now apply negb_true_iff, Z.eqb_neq.
      * apply (IH (i + 1)); [assumption|lia].
Qed.

(** With every bit below the bound set, it runs up to the bound. *)
Lemma scan_used_full (used : list Z) (k : nat) (i : Z) :
  (forall j, i <= j < i + Z.of_nat k -> bit_is_set used j = true) ->
  scan_used used k i = Some (i + Z.of_nat k).
Proof.
  revert i. induction k as [|k IH]; simpl; intros i H.
  - f_equal. lia.
  - assert (bit_is_set used i = true) as Hi by (apply H; lia).
    unfold bit_is_set in Hi.
    destruct (BITFIELD_TEST used i) as [b|]; [|discriminate].
    destruct (b =? 0); [discriminate|].
    rewrite IH; [f_equal; lia|]. intros j Hj. apply H. lia.
Qed.

(** ** The allocator *)

Section Allocator.
Context {hdr : lksmith_h}.

(** With the loop index at most [g_locks_size], the allocator goes straight
    to [BITFIELD_SET]: no [realloc] is called and the table, its size and
    the length of the bitmap stay as they were. *)
Lemma alloc_without_growth (o : alloc_oracle) (w : world) (i : Z) :
  scan_used (g_locks_used w) (Z.to_nat (g_locks_size w)) 0 = Some i ->
  i <= g_locks_size w ->
  lksmith_alloc_next_lock_id o w =
    match BITFIELD_SET (g_locks_used w) i with
    | Some u => Done i (set_g_locks_used u w)
    | None => Fault
    end.
Proof.
  intros Hscan Hle. unfold lksmith_alloc_next_lock_id, bind, get. simpl.
  rewrite Hscan.
  destruct (Z.gtb_spec i (g_locks_size w)) as [Hgt|_]; [lia|].
  now destruct (BITFIELD_SET (g_locks_used w) i).
Qed.

(** While a bit below [g_locks_size] is clear, the allocator returns the
    lowest such index and sets its bit, leaving the others alone. *)
Lemma alloc_lowest_clear (o : alloc_oracle) (w : world) (i : Z) :
  scan_used (g_locks_used w) (Z.to_nat (g_locks_size w)) 0 = Some i ->
  i < g_locks_size w ->
  exists u,
    lksmith_alloc_next_lock_id o w = Done i (set_g_locks_used u w) /\
    bit_is_set (g_locks_used w) i = false /\
    (forall j, 0 <= j < i -> bit_is_set (g_locks_used w) j = true) /\
    bit_is_set u i = true /\
    (forall j, 0 <= j -> j <> i ->
       bit_is_set u j = bit_is_set (g_locks_used w) j).
Proof.
  intros Hscan Hlt.
  pose proof (scan_used_bounds _ _ _ _ Hscan) as [Hi _].
  assert (BITFIELD_TEST (g_locks_used w) i = Some 0) as Hclear.
  { eapply scan_used_stops_clear; [eassumption|lia]. }
  destruct (BITFIELD_SET (g_locks_used w) i) as [u|] eqn:Hset.
  - exists u. rewrite (alloc_without_growth o w i Hscan) by lia.
    rewrite Hset. repeat split.
    + now apply BITFIELD_TEST_clear.
    + intros j Hj. exact (scan_used_skips_set _ _ _ _ _ Hscan Hj).
    + exact (BITFIELD_SET_sets _ _ _ Hi Hset).
    + intros j Hj Hne. exact (BITFIELD_SET_other _ _ _ _ Hi Hj Hne Hset).
  - exfalso. revert Hclear Hset. unfold BITFIELD_TEST, BITFIELD_SET.
    destruct (g_locks_used w !! Z.to_nat (Z.quot i 8)); discriminate.
Qed.

(** C10: in [lksmith_alloc_next_lock_id] the index after the scan loop is at
    most [g_locks_size], so the test [i > g_locks_size] that guards the
    growth branch fails in every state; and when every bit below
    [g_locks_size] is set the function calls [BITFIELD_SET] at index
    [g_locks_size] on the bitmap and table it was entered with: the write
    falls outside the bitmap, or the function returns [g_locks_size] with
    the table, its size and the length of the bitmap as they were. *)
Theorem alloc_growth_branch_unreachable (o : alloc_oracle) (w : world) :
  0 <= g_locks_size w ->
  (forall i,
     scan_used (g_locks_used w) (Z.to_nat (g_locks_size w)) 0 = Some i ->
     i <= g_locks_size w /\ (i >? g_locks_size w) = false) /\
  ((forall j, 0 <= j < g_locks_size w ->
      bit_is_set (g_locks_used w) j = true) ->
   scan_used (g_locks_used w) (Z.to_nat (g_locks_size w)) 0
     = Some (g_locks_size w) /\
   lksmith_alloc_next_lock_id o w =
     match BITFIELD_SET (g_locks_used w) (g_locks_size w) with
     | Some u => Done (g_locks_size w) (set_g_locks_used u w)
     | None => Fault
     end /\
   forall r w',
     lksmith_alloc_next_lock_id o w = Done r w' ->
     r = g_locks_size w /\ g_locks w' = g_locks w /\
     g_locks_size w' = g_locks_size w /\
     length (g_locks_used w') = length (g_locks_used w)).
Proof.
  intros Hsize. split.
  - intros i Hscan. apply scan_used_bounds in Hscan.
    rewrite Z2Nat.id in Hscan by assumption.
    split; [lia|]. destruct (Z.gtb_spec i (g_locks_size w)); [lia|reflexivity].
  - intros Hfull.
    assert (scan_used (g_locks_used w) (Z.to_nat (g_locks_size w)) 0
              = Some (g_locks_size w)) as Hscan.
    { rewrite (scan_used_full _ _ 0).
      - f_equal. rewrite Z2Nat.id by assumption. lia.
      - intros j Hj. apply Hfull. rewrite Z2Nat.id in Hj by assumption. lia. }
    split; [assumption|].
    rewrite (alloc_without_growth o w (g_locks_size w)) by (assumption || lia).
    split; [reflexivity|].
    destruct (BITFIELD_SET (g_locks_used w) (g_locks_size w)) as [u|] eqn:Hset;
      [|discriminate].
    intros r w' [= <- <-]. repeat split.
    cbn [g_locks_used set_g_locks_used].
    eapply BITFIELD_SET_length; eassumption.
Qed.

(** C3: with every bit below [g_locks_size] set, the allocator grows
    neither the bitmap nor the table.  From the statics' initial state and
    from a full registry of 8 slots the write of the new bit falls outside
    the bitmap; from a full registry of 7 slots it returns 7 and leaves
    [g_locks_size] and the table at 7 slots. *)
Theorem alloc_full_registry_not_grown (o : alloc_oracle) :
  lksmith_alloc_next_lock_id o initial_world = Fault /\
  lksmith_alloc_next_lock_id o (registry 8 [255]) = Fault /\
  lksmith_alloc_next_lock_id o (registry 7 [127])
    = Done 7 (set_g_locks_used [255] (registry 7 [127])).
Proof. split; [reflexivity|split; reflexivity]. Qed.

End Allocator.

(** * The allocator, call after call *)

(** The loop stops at the first clear bit. *)
Lemma scan_used_finds (used : list Z) (k : nat) (s i : Z) :
  (forall j, s <= j < i -> bit_is_set used j = true) ->
  BITFIELD_TEST used i = Some 0 ->
  s <= i < s + Z.of_nat k ->
  scan_used used k s = Some i.
Proof.
  revert s. induction k as [|k IH]; intros s Hlow Hclear Hi; [lia|].
  simpl. destruct (Z.eq_dec s i) as [->|Hne].
  - now rewrite Hclear.
  - assert (bit_is_set used s = true) as Hs by (apply Hlow; lia).
    unfold bit_is_set in Hs.
    destruct (BITFIELD_TEST used s) as [b|]; [|discriminate].
    destruct (b =? 0); [discriminate|].
    apply IH; [|assumption|lia]. intros j Hj. apply Hlow. lia.
Qed.

(** A bit that reads clear inside the bitmap tests as 0. *)
Lemma bit_clear_in_range (used : list Z) (i : Z) :
  (Z.to_nat (Z.quot i 8) < length used)%nat ->
  bit_is_set used i = false -> BITFIELD_TEST used i = Some 0.
Proof.
  intros Hin. unfold bit_is_set, BITFIELD_TEST.
  apply lookup_lt_is_Some in Hin as [b Hb]. rewrite Hb.
  intros Hz. apply negb_false_iff, Z.eqb_eq in Hz. now rewrite Hz.
Qed.

Section AllocatorCalls.
Context {hdr : lksmith_h}.

(** What a call of the allocator that returns has done. *)
Lemma alloc_outcome (o : alloc_oracle) (w w' : world) (r : Z) :
  0 <= g_locks_size w ->
  lksmith_alloc_next_lock_id o w = Done r w' ->
  exists u,
    scan_used (g_locks_used w) (Z.to_nat (g_locks_size w)) 0 = Some r /\
    BITFIELD_SET (g_locks_used w) r = Some u /\
    w' = set_g_locks_used u w /\ 0 <= r <= g_locks_size w.
Proof.
  intros Hsize Hrun.
  destruct (scan_used (g_locks_used w) (Z.to_nat (g_locks_size w)) 0)
    as [i|] eqn:Hscan.
  - pose proof (scan_used_bounds _ _ _ _ Hscan) as Hi.
    rewrite Z2Nat.id in Hi by assumption.
    rewrite (alloc_without_growth o w i Hscan) in Hrun by lia.
    destruct (BITFIELD_SET (g_locks_used w) i) as [u|] eqn:Hset;
      [|discriminate].
    injection Hrun as <- <-. exists u. repeat split; (assumption || lia).
  - revert Hrun. unfold lksmith_alloc_next_lock_id, bind, get. simpl.
    now rewrite Hscan.
Qed.

(** X1: when bit [i] is the lowest clear bit of the bitmap and lies below
    [g_locks_size], [lksmith_alloc_next_lock_id] returns [i], whatever
    [realloc] would do, with bit [i] set and every other bit as before. *)
Theorem alloc_returns_lowest_free (o : alloc_oracle) (w : world) (i : Z) :
  0 <= i < g_locks_size w ->
  (Z.to_nat (Z.quot i 8) < length (g_locks_used w))%nat ->
  bit_is_set (g_locks_used w) i = false ->
  (forall j, 0 <= j < i -> bit_is_set (g_locks_used w) j = true) ->
  exists u,
    lksmith_alloc_next_lock_id o w = Done i (set_g_locks_used u w) /\
    bit_is_set u i = true /\
    (forall j, 0 <= j -> j <> i ->
       bit_is_set u j = bit_is_set (g_locks_used w) j).
Proof.
  intros Hi Hin Hclear Hlow.
  assert (scan_used (g_locks_used w) (Z.to_nat (g_locks_size w)) 0 = Some i)
    as Hscan.
  { apply scan_used_finds; [assumption| |].
    - now apply bit_clear_in_range.
    - rewrite Z2Nat.id by lia. lia. }
  destruct (alloc_lowest_clear o w i Hscan) as (u & Hrun & _ & _ & Hset & Hrest);
    [lia|].
  exists u. auto.
Qed.

(** X2: a call of [lksmith_alloc_next_lock_id] that returns has changed
    nothing but the bitmap: the heap, the internal lock, the callback, the
    table, its size and the trace are as before, the bitmap has kept its
    length, no bit that was set has been cleared, and the bit of the
    returned id is set. *)
Theorem alloc_only_sets_a_bit (o : alloc_oracle) (w w' : world) (r : Z) :
  0 <= g_locks_size w ->
  lksmith_alloc_next_lock_id o w = Done r w' ->
  heap w' = heap w /\ g_internal_lock w' = g_internal_lock w /\
  g_error_cb w' = g_error_cb w /\ g_locks w' = g_locks w /\
  g_locks_size w' = g_locks_size w /\ trace w' = trace w /\
  length (g_locks_used w') = length (g_locks_used w) /\
  bit_is_set (g_locks_used w') r = true /\
  (forall j, 0 <= j -> bit_is_set (g_locks_used w) j = true ->
     bit_is_set (g_locks_used w') j = true).
Proof.
  intros Hsize Hrun.
  destruct (alloc_outcome o w w' r Hsize Hrun) as (u & _ & Hset & -> & Hr).
  cbn [heap g_internal_lock g_error_cb g_locks g_locks_size trace
       g_locks_used set_g_locks_used].
  repeat split.
  - eapply BITFIELD_SET_length; eassumption.
  - apply (BITFIELD_SET_sets _ _ _ (proj1 Hr) Hset).
  - intros j Hj Hwas. destruct (Z.eq_dec j r) as [->|Hne].
    + apply (BITFIELD_SET_sets _ _ _ (proj1 Hr) Hset).
    + now rewrite (BITFIELD_SET_other _ _ _ _ (proj1 Hr) Hj Hne Hset).
Qed.

(** X3: after a call of [lksmith_alloc_next_lock_id] has returned an id
    below [g_locks_size], the next call that returns gives a larger id: an
    id found by the scan is not handed out again. *)
Theorem alloc_next_id_larger (o o' : alloc_oracle) (w w1 w2 : world)
    (i j : Z) :
  0 <= g_locks_size w ->
  lksmith_alloc_next_lock_id o w = Done i w1 ->
  i < g_locks_size w ->
  lksmith_alloc_next_lock_id o' w1 = Done j w2 ->
  i < j.
Proof.
  intros Hsize Hrun1 Hi Hrun2.
  destruct (alloc_outcome o w w1 i Hsize Hrun1)
    as (u & Hscan1 & Hset1 & -> & Hi0).
  destruct (alloc_outcome o' (set_g_locks_used u w) w2 j Hsize Hrun2)
    as (u2 & Hscan2 & _ & _ & Hj0).
  cbn [g_locks_used g_locks_size set_g_locks_used] in Hscan2, Hj0.
  destruct (Z.lt_ge_cases i j) as [|Hle]; [assumption|exfalso].
  assert (BITFIELD_TEST u j = Some 0) as Hclear.
  { eapply scan_used_stops_clear; [eassumption|].
    rewrite Z2Nat.id by assumption. lia. }
  apply BITFIELD_TEST_clear in Hclear.
  destruct (Z.eq_dec j i) as [->|Hne].
  - rewrite (BITFIELD_SET_sets _ _ _ (proj1 Hi0) Hset1) in Hclear.
    discriminate.
  - rewrite (BITFIELD_SET_other _ _ _ _ (proj1 Hi0) (proj1 Hj0) Hne Hset1)
      in Hclear.
    rewrite (scan_used_skips_set _ _ _ _ j Hscan1) in Hclear by lia.
    discriminate.
Qed.

(** X4: on a registry with every bit below [g_locks_size] set and room for
    one more bit in the last byte of the bitmap,
    [lksmith_alloc_next_lock_id] returns [g_locks_size], and so does every
    later call: the same id is handed out again and again. *)
Theorem alloc_full_repeats_id (o : alloc_oracle) (w : world) :
  0 <= g_locks_size w ->
  (forall j, 0 <= j < g_locks_size w ->
     bit_is_set (g_locks_used w) j = true) ->
  (Z.to_nat (Z.quot (g_locks_size w) 8) < length (g_locks_used w))%nat ->
  exists w1,
    lksmith_alloc_next_lock_id o w = Done (g_locks_size w) w1 /\
    g_locks_size w1 = g_locks_size w /\
    forall o', exists w2,
      lksmith_alloc_next_lock_id o' w1 = Done (g_locks_size w) w2 /\
      g_locks_size w2 = g_locks_size w.
Proof.
  intros Hsize Hfull Hroom.
  assert (forall v : world,
            g_locks_size v = g_locks_size w ->
            (forall j, 0 <= j < g_locks_size w ->
               bit_is_set (g_locks_used v) j = true) ->
            length (g_locks_used v) = length (g_locks_used w) ->
            forall o0, exists u,
              BITFIELD_SET (g_locks_used v) (g_locks_size w) = Some u /\
              lksmith_alloc_next_lock_id o0 v
                = Done (g_locks_size w) (set_g_locks_used u v)) as Hstep.
  { intros v Hv Hvfull Hvlen o0.
    assert (is_Some (BITFIELD_SET (g_locks_used v) (g_locks_size w)))
      as [u Hset].
    { unfold BITFIELD_SET.
      rewrite <- Hvlen in Hroom.
      apply lookup_lt_is_Some in Hroom as [b ->]. eauto. }
    exists u. split; [assumption|].
    rewrite (alloc_without_growth o0 v (g_locks_size w)); rewrite ?Hv.
    - now rewrite Hset.
    - rewrite (scan_used_full _ _ 0).
      + f_equal. rewrite Z2Nat.id by assumption. lia.
      + intros j Hj. apply Hvfull. rewrite Z2Nat.id in Hj by assumption. lia.
    - lia. }
  destruct (Hstep w eq_refl Hfull eq_refl o) as (u & Hset & Hrun).
  exists (set_g_locks_used u w). split; [assumption|]. split; [reflexivity|].
  intros o'.
  destruct (Hstep (set_g_locks_used u w) eq_refl) with (o0 := o')
    as (u' & _ & Hrun').
  - intros j Hj. cbn [g_locks_used set_g_locks_used].
    assert (j <> g_locks_size w) as Hne by lia.
    rewrite (BITFIELD_SET_other _ _ _ _ Hsize (proj1 Hj) Hne Hset).
    now apply Hfull.
  - cbn [g_locks_used set_g_locks_used].
    eapply BITFIELD_SET_length; eassumption.
  - exists (set_g_locks_used u' (set_g_locks_used u w)). split;
      [assumption|reflexivity].
Qed.

End AllocatorCalls.

(** ** Records *)

Section Records.
Context {hdr : lksmith_h}.

(** No call of [lksmith_realloc_lock_data] gets past its [realloc]. *)
Lemma realloc_lock_data_stops (data : option addr) (bsize : Z)
    (o : option junk) (w : world) :
  lksmith_realloc_lock_data data bsize o w = Fault.
Proof.
  unfold lksmith_realloc_lock_data, bind. destruct data as [a|].
  - unfold deref. destruct (heap w !! a) as [[d|]|]; reflexivity.
  - reflexivity.
Qed.

(** C6: [lksmith_realloc_lock_data] as the source has it.  Called as
    [lksmith_pthread_mutex_init] calls it, with [*data] NULL and
    [LKSMITH_BEFORE_MIN] bits, it creates no record: it hands [realloc] the
    address of the caller's pointer, which no [realloc] returned, and the
    call is undefined.  The same holds for every record it is asked to
    grow, whatever [realloc] would do. *)
Theorem realloc_lock_data_undefined :
  (forall (o : option junk) (w : world),
     lksmith_realloc_lock_data None LKSMITH_BEFORE_MIN o w = Fault) /\
  (forall (a : addr) (bsize : Z) (o : option junk) (w : world),
     lksmith_realloc_lock_data (Some a) bsize o w = Fault).
Proof. split; intros; apply realloc_lock_data_stops. Qed.

End Records.

(** ** Initialisation *)

Section Init.
Context {hdr : lksmith_h}.

(** From a registry of size 0 or more, a call of
    [lksmith_pthread_mutex_init] stops in the allocator or, past it, at the
    [realloc] of [lksmith_realloc_lock_data]. *)
Lemma init_stops (name : string) (mutex : lksmith_mutex_t) (o : init_oracle)
    (w : world) :
  0 <= g_locks_size w ->
  lksmith_pthread_mutex_init name mutex o w = Fault.
Proof.
  intros Hsize. unfold lksmith_pthread_mutex_init.
  unfold bind at 1. unfold lock_internal.
  destruct (g_internal_lock w); [reflexivity|].
  unfold bind at 1.
  destruct (lksmith_alloc_next_lock_id (id_oracle o)
              (emit EvLock (set_g_internal_lock true w)))
    as [i w1|] eqn:Halloc; [|reflexivity].
  destruct (alloc_outcome (id_oracle o)
              (emit EvLock (set_g_internal_lock true w)) w1 i Hsize Halloc)
    as (_ & _ & _ & _ & Hi).
  destruct (Z.ltb_spec i 0) as [|_]; [lia|].
  unfold bind at 1. now rewrite realloc_lock_data_stops.
Qed.

(** C5: in no state with [g_locks_size >= 0] does
    [lksmith_pthread_mutex_init] return, on a new handle or on one already
    initialised, with memory or without: it returns neither 0 nor [EBUSY]
    nor [ENOMEM].  The call stops where the allocator writes outside the
    bitmap or, past the allocator, where [lksmith_realloc_lock_data] calls
    [realloc] on the address of the caller's pointer. *)
Theorem init_never_returns (name : string) (mutex : lksmith_mutex_t)
    (o : init_oracle) (w : world) :
  0 <= g_locks_size w ->
  lksmith_pthread_mutex_init name mutex o w = Fault.
Proof. apply init_stops. Qed.

(** X10: on a registry with every bit below [g_locks_size] set and a bitmap
    that ends before the byte of bit [g_locks_size] (the statics as the
    loader leaves them are one), [lksmith_pthread_mutex_init] does not
    return, whatever its arguments: the allocator writes the new bit
    outside the bitmap. *)
Theorem init_full_registry_faults (name : string) (mutex : lksmith_mutex_t)
    (o : init_oracle) (w : world) :
  g_internal_lock w = false ->
  0 <= g_locks_size w ->
  (forall j, 0 <= j < g_locks_size w ->
     bit_is_set (g_locks_used w) j = true) ->
  (length (g_locks_used w) <= Z.to_nat (Z.quot (g_locks_size w) 8))%nat ->
  lksmith_pthread_mutex_init name mutex o w = Fault.
Proof.
  intros Hfree Hsize Hfull Hend.
  unfold lksmith_pthread_mutex_init.
  unfold bind at 1. unfold lock_internal. rewrite Hfree.
  unfold bind at 1.
  rewrite (alloc_without_growth _ _ (g_locks_size w));
    cbn [g_locks_used g_locks_size emit set_g_internal_lock].
  - unfold BITFIELD_SET. now rewrite lookup_ge_None_2.
  - rewrite (scan_used_full _ _ 0).
    + f_equal. rewrite Z2Nat.id by assumption. lia.
    + intros j Hj. apply Hfull. rewrite Z2Nat.id in Hj by assumption. lia.
  - lia.
Qed.

End Init.

(** ** The states of a run *)

Section RunProps.
Context {hdr : lksmith_h}.



End RunProps.

(** ** The unfinished wrappers *)




(** ** The version string *)

Lemma substring_all (s : string) (n : nat) :
  (String.length s <= n)%nat -> substring 0 n s = s.
Proof.
  revert n. induction s as [|c s IH]; intros [|n] Hn; simpl in *;
    try reflexivity; try lia.
  f_equal. apply IH. lia.
Qed.

Lemma string_length_app (s t : string) :
  String.length (s ++ t) = (String.length s + String.length t)%nat.
Proof. induction s as [|c s IH]; simpl; [reflexivity|now rewrite IH]. Qed.

Lemma all_short_sound (k : nat) (z y : Z) :
  all_short k z = true -> z <= y < z + Z.of_nat k ->
  (String.length (fmt_d y) <= 5)%nat.
Proof.
  revert z. induction k as [|k IH]; intros z H Hy; [lia|].
  simpl in H. apply andb_true_iff in H as [Hz Hrest].
  destruct (Z.eq_dec y z) as [->|Hne].
  - now apply Nat.leb_le.
  - apply (IH (z + 1)); [assumption|lia].
Qed.

(** [%d] prints a 16-bit value in at most five characters. *)
Lemma fmt_d_16_bit (z : Z) :
  0 <= z < 65536 -> (String.length (fmt_d z) <= 5)%nat.
Proof.
  intros Hz. apply (all_short_sound (Z.to_nat 65536) 0).
  - vm_compute. reflexivity.
  - rewrite Z2Nat.id; lia.
Qed.

Section VersionProps.
Context {hdr : lksmith_h}.

Lemma version_text_length : (String.length version_text <= 11)%nat.
Proof.
  unfold version_text.
  rewrite !string_length_app. cbn [String.length].
  assert (0 <= version_major < 65536) as Hmaj.
  { unfold version_major. change 65535 with (Z.ones 16).
    rewrite Z.land_ones by lia. apply Z.mod_pos_bound. reflexivity. }
  assert (0 <= version_minor < 65536) as Hmin.
  { unfold version_minor. change 65535 with (Z.ones 16).
    rewrite Z.land_ones by lia. apply Z.mod_pos_bound. reflexivity. }
  apply fmt_d_16_bit in Hmaj, Hmin. lia.
Qed.

(** C8: [lksmith_verion_to_str] returns [-EIO] when the formatting fails;
    otherwise, given a buffer with no room for the text ["major.minor"] and
    its terminator, it returns [-ENAMETOOLONG] and leaves a truncated text,
    and given a larger one it returns 0 and leaves exactly that text. *)
Theorem verion_to_str_result (io_ok : bool) (ver : Z) (str : string)
    (str_len : Z) :
  0 <= str_len ->
  (io_ok = false ->
     lksmith_verion_to_str io_ok ver str str_len = (- EIO, str)) /\
  (io_ok = true ->
     str_len <= Z.of_nat (String.length version_text) ->
     lksmith_verion_to_str io_ok ver str str_len =
       (- ENAMETOOLONG,
        if str_len =? 0 then str
        else substring 0 (Z.to_nat (str_len - 1)) version_text)) /\
  (io_ok = true ->
     Z.of_nat (String.length version_text) < str_len ->
     lksmith_verion_to_str io_ok ver str str_len = (0, version_text)).
Proof.
  intros Hlen. pose proof version_text_length as Hshort.
  assert (to_size_t (Z.of_nat (String.length version_text))
            = Z.of_nat (String.length version_text)) as Hsz.
  { unfold to_size_t. change (2 ^ 64) with 18446744073709551616.
    apply Z.mod_small. lia. }
  unfold lksmith_verion_to_str, snprintf.
  split; [|split].
  - intros ->. reflexivity.
  - intros -> Hsmall.
    destruct (Z.ltb_spec (Z.of_nat (String.length version_text)) 0); [lia|].
    rewrite Hsz.
    destruct (Z.geb_spec (Z.of_nat (String.length version_text)) str_len);
      [reflexivity|lia].
  - intros -> Hlarge.
    destruct (Z.ltb_spec (Z.of_nat (String.length version_text)) 0); [lia|].
    rewrite Hsz.
    destruct (Z.geb_spec (Z.of_nat (String.length version_text)) str_len);
      [lia|].
    destruct (Z.eqb_spec str_len 0); [lia|].
    rewrite substring_all by lia. reflexivity.
Qed.

(** C9: the argument [ver] of [lksmith_verion_to_str] has no influence:
    with the same buffer, length and formatting outcome, two versions give
    the same result and the same string, formatted from
    [LKSMITH_API_VERSION]. *)
Theorem verion_to_str_ignores_ver (io_ok : bool) (v1 v2 : Z) (str : string)
    (str_len : Z) :
  lksmith_verion_to_str io_ok v1 str str_len =
    lksmith_verion_to_str io_ok v2 str str_len /\
  lksmith_verion_to_str io_ok v1 str str_len =
    (let '(res, str') := snprintf io_ok str str_len
       (fmt_d (Z.land (Z.shiftr LKSMITH_API_VERSION 16) 65535) ++ "." ++
        fmt_d (Z.land LKSMITH_API_VERSION 65535)) in
     if res <? 0 then (- EIO, str')
     else if to_size_t res >=? str_len then (- ENAMETOOLONG, str')
     else (0, str')).
Proof. split; reflexivity. Qed.

End VersionProps.

(** * The version, packed and printed *)

Lemma substring_0_length (s : string) (n : nat) :
  String.length (substring 0 n s) = Nat.min n (String.length s).
Proof.
  revert n. induction s as [|c s IH]; intros [|n]; simpl; try reflexivity.
  now rewrite IH.
Qed.

Lemma substring_0_prefix (s : string) (n : nat) :
  exists rest, s = (substring 0 n s ++ rest)%string.
Proof.
  revert n. induction s as [|c s IH]; intros [|n]; simpl.
  - now exists ""%string.
  - now exists ""%string.
  - now exists (String c s).
  - destruct (IH n) as [rest Hrest]. exists rest. now rewrite <- Hrest.
Qed.

Section VersionCalls.
Context {hdr : lksmith_h}.

(** X14: for a version that fits [uint32_t], the two numbers
    [lksmith_verion_to_str] prints are the high and the low half of what
    [lksmith_get_version] returns, each below 65536, and they give the
    packed version back. *)
Theorem version_fields_pack :
  0 <= LKSMITH_API_VERSION < 2 ^ 32 ->
  0 <= version_major < 65536 /\ 0 <= version_minor < 65536 /\
  lksmith_get_version = version_major * 65536 + version_minor /\
  version_text =
    (fmt_d (lksmith_get_version / 65536) ++ "." ++
     fmt_d (lksmith_get_version mod 65536))%string.
Proof.
  intros Hv. change (2 ^ 32) with 4294967296 in Hv.
  unfold version_text, version_major, version_minor, lksmith_get_version.
  unfold to_uint32. change (2 ^ 32) with 4294967296.
  rewrite (Z.mod_small LKSMITH_API_VERSION 4294967296) by lia.
  change 65535 with (Z.ones 16). rewrite !Z.land_ones by lia.
  rewrite Z.shiftr_div_pow2 by lia. change (2 ^ 16) with 65536.
  assert (0 <= LKSMITH_API_VERSION / 65536 < 65536) as Hhigh.
  { split; [apply Z.div_pos; lia|apply Z.div_lt_upper_bound; lia]. }
  rewrite (Z.mod_small (LKSMITH_API_VERSION / 65536)) by assumption.
  pose proof (Z.mod_pos_bound LKSMITH_API_VERSION 65536 ltac:(lia)).
  pose proof (Z.div_mod LKSMITH_API_VERSION 65536 ltac:(lia)).
  repeat split; try lia.
Qed.

(** X15: whatever the version, a buffer of 12 bytes or more is enough:
    when the formatting succeeds [lksmith_verion_to_str] returns 0 and
    leaves the whole text. *)
Theorem verion_to_str_12_bytes (ver : Z) (str : string) (str_len : Z) :
  12 <= str_len ->
  lksmith_verion_to_str true ver str str_len = (0, version_text).
Proof.
  intros Hlen. pose proof version_text_length as Hshort.
  unfold lksmith_verion_to_str, snprintf.
  destruct (Z.ltb_spec (Z.of_nat (String.length version_text)) 0); [lia|].
  unfold to_size_t. change (2 ^ 64) with 18446744073709551616.
  rewrite Z.mod_small by lia.
  destruct (Z.geb_spec (Z.of_nat (String.length version_text)) str_len);
    [lia|].
  destruct (Z.eqb_spec str_len 0); [lia|].
  now rewrite substring_all by lia.
Qed.

(** X16: given a buffer of at least one byte and a formatting that
    succeeds, [lksmith_verion_to_str] leaves a string that fits the buffer
    with its terminator and is a prefix of the text; it returns 0 or
    [-ENAMETOOLONG], and 0 exactly when the string left is the whole
    text. *)
Theorem verion_to_str_within_buffer (ver : Z) (str : string) (str_len : Z) :
  0 < str_len ->
  Z.of_nat (String.length (snd (lksmith_verion_to_str true ver str str_len)))
    < str_len /\
  (exists rest,
     version_text =
       (snd (lksmith_verion_to_str true ver str str_len) ++ rest)%string) /\
  (fst (lksmith_verion_to_str true ver str str_len) = 0 \/
   fst (lksmith_verion_to_str true ver str str_len) = - ENAMETOOLONG) /\
  (fst (lksmith_verion_to_str true ver str str_len) = 0 <->
   snd (lksmith_verion_to_str true ver str str_len) = version_text).
Proof.
  intros Hlen. pose proof version_text_length as Hshort.
  unfold lksmith_verion_to_str, snprintf.
  destruct (Z.ltb_spec (Z.of_nat (String.length version_text)) 0); [lia|].
  unfold to_size_t. change (2 ^ 64) with 18446744073709551616.
  rewrite Z.mod_small by lia.
  destruct (Z.eqb_spec str_len 0); [lia|].
  pose proof (substring_0_length version_text (Z.to_nat (str_len - 1)))
    as Hsub.
  destruct (Z.geb_spec (Z.of_nat (String.length version_text)) str_len);
    cbn [fst snd]; (split; [lia|]);
    (split; [apply substring_0_prefix|]); (split; [auto|]).
  - split; [discriminate|]. intros Heq. rewrite Heq in Hsub. lia.
  - split; [|reflexivity]. intros _. apply substring_all. lia.
Qed.

End VersionCalls.

(** * The theorems at work *)

Local Ltac by_arith :=
  first [ simpl; lia
        | vm_compute; lia
        | vm_compute; repeat split; (reflexivity || discriminate) ].

Lemma alloc_growth_branch_unreachable_witness :
  0 <= g_locks_size (registry 7 [127]) /\
  lksmith_alloc_next_lock_id (hdr := sample_h) no_memory (registry 7 [127])
    = Done 7 (set_g_locks_used [255] (registry 7 [127])).
Proof.
  assert (0 <= g_locks_size (registry 7 [127])) as Hsize by (simpl; lia).
  split; [exact Hsize|].
  destruct (alloc_growth_branch_unreachable (hdr := sample_h) no_memory
              (registry 7 [127]) Hsize) as [_ Hfull].
  destruct Hfull as (_ & -> & _); [|reflexivity].
  intros j Hj. simpl in Hj.
  assert (j = 0 \/ j = 1 \/ j = 2 \/ j = 3 \/ j = 4 \/ j = 5 \/ j = 6)
    as Hcases by lia.
  repeat (destruct Hcases as [->|Hcases]; [reflexivity|]).
  now subst j.
Defined.


Lemma init_never_returns_witness :
  0 <= g_locks_size initial_world /\
  lksmith_pthread_mutex_init (hdr := sample_h) "m"
    {| info_data := Some 5%nat |} init_memory initial_world = Fault.
Proof.
  assert (0 <= g_locks_size initial_world) as Hsize by (simpl; lia).
  split; [exact Hsize|].
  apply (init_never_returns (hdr := sample_h) "m"
           {| info_data := Some 5%nat |} init_memory initial_world Hsize).
Defined.

Lemma verion_to_str_result_witness :
  lksmith_verion_to_str (hdr := sample_h) true 0 "" 4
    = (- ENAMETOOLONG, "10."%string) /\
  lksmith_verion_to_str (hdr := sample_h) true 0 "" 6 = (0, "10.10"%string).
Proof.
  split.
  - destruct (verion_to_str_result (hdr := sample_h) true 0 "" 4)
      as (_ & Hsmall & _); [lia|].
    apply Hsmall; [reflexivity|]. vm_compute. discriminate.
  - destruct (verion_to_str_result (hdr := sample_h) true 0 "" 6)
      as (_ & _ & Hlarge); [lia|].
    apply Hlarge; reflexivity.
Defined.

Lemma alloc_returns_lowest_free_witness :
  exists u,
    lksmith_alloc_next_lock_id (hdr := sample_h) no_memory (registry 8 [5])
      = Done 1 (set_g_locks_used u (registry 8 [5])) /\
    bit_is_set u 1 = true /\
    (forall j, 0 <= j -> j <> 1 -> bit_is_set u j = bit_is_set [5] j).
Proof.
  apply (alloc_returns_lowest_free (hdr := sample_h) no_memory
           (registry 8 [5]) 1).
  - by_arith.
  - by_arith.
  - reflexivity.
  - intros j Hj. replace j with 0 by lia. reflexivity.
Defined.

Lemma alloc_only_sets_a_bit_witness :
  lksmith_alloc_next_lock_id (hdr := sample_h) no_memory (registry 8 [5])
    = Done 1 (set_g_locks_used [7] (registry 8 [5])) /\
  g_locks (set_g_locks_used [7] (registry 8 [5])) = g_locks (registry 8 [5]) /\
  bit_is_set [7] 1 = true.
Proof.
  assert (lksmith_alloc_next_lock_id (hdr := sample_h) no_memory
            (registry 8 [5]) = Done 1 (set_g_locks_used [7] (registry 8 [5])))
    as Hrun by reflexivity.
  split; [exact Hrun|].
  destruct (alloc_only_sets_a_bit (hdr := sample_h) no_memory (registry 8 [5])
              (set_g_locks_used [7] (registry 8 [5])) 1)
    as (_ & _ & _ & Htable & _ & _ & _ & Hbit & _).
  - by_arith.
  - exact Hrun.
  - split; [exact Htable|exact Hbit].
Defined.

Lemma alloc_next_id_larger_witness :
  lksmith_alloc_next_lock_id (hdr := sample_h) no_memory (registry 8 [5])
    = Done 1 (set_g_locks_used [7] (registry 8 [5])) /\
  lksmith_alloc_next_lock_id (hdr := sample_h) no_memory
    (set_g_locks_used [7] (registry 8 [5]))
    = Done 3 (set_g_locks_used [15] (registry 8 [5])) /\
  1 < 3.
Proof.
  split; [reflexivity|]. split; [reflexivity|].
  apply (alloc_next_id_larger (hdr := sample_h) no_memory no_memory
           (registry 8 [5]) (set_g_locks_used [7] (registry 8 [5]))
           (set_g_locks_used [15] (registry 8 [5])) 1 3).
  - by_arith.
  - reflexivity.
  - by_arith.
  - reflexivity.
Defined.

Lemma alloc_full_repeats_id_witness :
  exists w1,
    lksmith_alloc_next_lock_id (hdr := sample_h) no_memory (registry 7 [127])
      = Done 7 w1 /\
    g_locks_size w1 = 7 /\
    forall o', exists w2,
      lksmith_alloc_next_lock_id (hdr := sample_h) o' w1 = Done 7 w2 /\
      g_locks_size w2 = 7.
Proof.
  apply (alloc_full_repeats_id (hdr := sample_h) no_memory (registry 7 [127])).
  - by_arith.
  - intros j Hj. simpl in Hj.
    assert (j = 0 \/ j = 1 \/ j = 2 \/ j = 3 \/ j = 4 \/ j = 5 \/ j = 6)
      as Hcases by lia.
    repeat (destruct Hcases as [->|Hcases]; [reflexivity|]).
    now subst j.
  - by_arith.
Defined.

Lemma init_full_registry_faults_witness :
  lksmith_pthread_mutex_init (hdr := sample_h) "m" {| info_data := None |}
    init_memory initial_world = Fault.
Proof.
  apply (init_full_registry_faults (hdr := sample_h) "m"
           {| info_data := None |} init_memory initial_world).
  - reflexivity.
  - by_arith.
  - simpl. intros j Hj. lia.
  - by_arith.
Defined.

Lemma version_fields_pack_witness :
  @lksmith_get_version sample_h = 10 * 65536 + 10.
Proof.
  destruct (version_fields_pack (hdr := sample_h)) as (_ & _ & Hpack & _).
  - by_arith.
  - exact Hpack.
Defined.

Lemma verion_to_str_12_bytes_witness :
  lksmith_verion_to_str (hdr := sample_h) true 0 "" 12 = (0, "10.10"%string).
Proof.
  apply (verion_to_str_12_bytes (hdr := sample_h) 0 "" 12). by_arith.
Defined.

Lemma verion_to_str_within_buffer_witness :
  Z.of_nat
    (String.length
       (snd (lksmith_verion_to_str (hdr := sample_h) true 0 "" 4))) < 4.
Proof.
  destruct (verion_to_str_within_buffer (hdr := sample_h) 0 "" 4)
    as [Hfits _]; [by_arith|exact Hfits].
Defined.
